(** * Atomic intrinsics of [src/mongo/platform/atomic_intrinsics_gcc.h]

    A shallow embedding of the two instantiations of [AtomicIntrinsics<T>]:
    the primary template (word types no wider than a pointer) and the
    partial specialisation for word types wider than a pointer (the 64-bit
    word on a 32-bit machine).

    A value of the word type [T] is its bit pattern, an integer in
    [0, 2^bits); arithmetic wraps modulo [2^bits].  The shared cell [*dest]
    is the state that every operation threads: an operation is a function
    from the cell's contents to a returned value and the new contents.
    Every machine instruction and every compiler builtin is one atomic step
    on that state; fences order memory traffic and change no value. *)

From Stdlib Require Import ZArith Lia Bool List.
Import ListNotations.
Local Open Scope Z_scope.

(** ** Words *)

Definition modulus (bits : Z) : Z := 2 ^ bits.

(** Fixed-width wrap-around of an integer to [bits] bits. *)
Definition wrap (bits v : Z) : Z := v mod modulus bits.

(** [v] is the bit pattern of a [bits]-bit word. *)
Definition is_word (bits v : Z) : Prop := 0 <= v < modulus bits.

(** ** The state of one shared cell *)

(** An operation on the cell: contents before -> (returned value, contents after). *)
Definition Atomic (A : Type) : Type := Z -> A * Z.

Definition ret {A : Type} (x : A) : Atomic A := fun cell => (x, cell).

Definition bind {A B : Type} (c : Atomic A) (k : A -> Atomic B) : Atomic B :=
  fun cell => let '(x, cell') := c cell in k x cell'.

Declare Scope atomic_scope.
Delimit Scope atomic_scope with atomic.
Notation "x <- c ;; k" := (bind c (fun x => k))
  (at level 61, c at next level, right associativity) : atomic_scope.
Notation "c ;; k" := (bind c (fun _ => k))
  (at level 61, right associativity) : atomic_scope.
Local Open Scope atomic_scope.

(** [result = *value]: a plain read of the cell. *)
Definition deref : Atomic Z := fun cell => (cell, cell).

(** [*dest = newValue]: a plain write of the cell. *)
Definition assign (newValue : Z) : Atomic unit := fun _ => (tt, newValue).

(** The two branches of [#if defined(__arm__)]. *)
Inductive arch : Type := X86 | ARM.

(** ** IA-32 / AMD64 instructions used by the primary template *)

(** [lock cmpxchg %src, dest] with the accumulator holding [acc]: when the
    accumulator equals the destination, the destination receives [src];
    otherwise the accumulator receives the destination.  The value
    produced is the accumulator afterwards. *)
Definition lock_cmpxchg (src acc : Z) : Atomic Z :=
  fun cell => if acc =? cell then (acc, src) else (cell, cell).

(** [xchg %r, dest]: register and destination trade contents; the value
    produced is the register afterwards. *)
Definition xchg (r : Z) : Atomic Z := fun cell => (cell, r).

(** [lock xadd %src, dest] on [bits]-bit operands: the destination receives
    the sum, the register receives the old destination. *)
Definition lock_xadd (bits : Z) (src : Z) : Atomic Z :=
  fun cell => (cell, wrap bits (cell + src)).

(** [mfence]: orders memory traffic, changes no value. *)
Definition mfence : Atomic unit := ret tt.

(** ** GCC [__sync] builtins used by the ARM branches

    Their meaning is the one the GCC manual gives them. *)

(** [__sync_val_compare_and_swap(dest, expected, newValue)]: if the cell
    equals [expected] write [newValue]; return the contents before. *)
Definition sync_val_compare_and_swap (expected newValue : Z) : Atomic Z :=
  fun cell => (cell, if cell =? expected then newValue else cell).

(** [__sync_lock_test_and_set(dest, value)]: an atomic exchange; writes
    [value] and returns the previous contents. *)
Definition sync_lock_test_and_set (value : Z) : Atomic Z :=
  fun cell => (cell, value).

(** [__sync_lock_release(dest)]: releases the lock taken by
    [__sync_lock_test_and_set]; in the manual's words, "this means writing
    the constant 0 to [*ptr]". *)
Definition sync_lock_release : Atomic unit := fun _ => (tt, 0).

(** [__sync_fetch_and_add(dest, value)]: adds [value] to the cell and
    returns the contents before. *)
Definition sync_fetch_and_add (bits : Z) (value : Z) : Atomic Z :=
  fun cell => (cell, wrap bits (cell + value)).

(** [__sync_synchronize()]: a full barrier, changes no value. *)
Definition sync_synchronize : Atomic unit := ret tt.

(** ** The operation set, as a caller sees it *)

(** A call of one of the six member functions, with its arguments. *)
Inductive operation : Type :=
  | CompareAndSwap (expected newValue : Z)
  | Swap (newValue : Z)
  | Load
  | LoadRelaxed
  | Store (newValue : Z)
  | FetchAndAdd (increment : Z).

(** What a call comes to: the class has no such member (the call does not
    compile), the model's fuel ran out inside a retry loop, or the call
    returned [value] ([None] for a [void] function) and left [cell]. *)
Inductive outcome : Type :=
  | NoSuchMember
  | OutOfFuel
  | Returns (value : option Z) (cell : Z).

(** ** [do { ... } while (...)] on the shared cell *)

(** A loop that left after [iterations] runs of its body with [value] in
    hand and [cell_after] in the cell. *)
Record completed (A : Type) : Type :=
  Completed { value : A; iterations : nat; cell_after : Z }.
Arguments Completed {A} _ _ _.
Arguments value {A} _.
Arguments iterations {A} _.
Arguments cell_after {A} _.

(** [do body while (again)]: [body i] is the [i]-th run of the body (counted
    from 0); [fuel] bounds the number of runs the model follows. *)
Fixpoint do_while {A : Type} (body : nat -> Atomic A) (again : A -> bool)
    (fuel i : nat) (cell : Z) : option (completed A) :=
  match fuel with
  | O => None
  | S fuel' =>
      let '(x, cell') := body i cell in
      if again x then do_while body again fuel' (S i) cell'
      else Some (Completed x (S i) cell')
  end.

(** What the other threads do to the cell while a retry loop runs, as
    their combined effect at the two places where it matters in run [i] of
    the loop body: before the cell is read into [expected], and between
    that read and the compare-and-swap. *)
Record interference : Type := Interference {
  before_read : nat -> Z -> Z;
  before_cas : nat -> Z -> Z
}.

(** No other thread touches the cell. *)
Definition quiet : interference :=
  Interference (fun _ cell => cell) (fun _ cell => cell).

(** The other threads take their turn. *)
Definition interfere (others : Z -> Z) : Atomic unit :=
  fun cell => (tt, others cell).

(** ** [AtomicIntrinsics<T>], [sizeof(T) <= sizeof(void* )] *)

Module AtomicIntrinsics.
Section Primary.

(** The branch of [#if defined(__arm__)] compiled, and the width of [T]. *)
Variable a : arch.
Variable bits : Z.

Definition compareAndSwap (expected newValue : Z) : Atomic Z :=
  match a with
  | ARM => sync_val_compare_and_swap expected newValue
  | X86 => lock_cmpxchg newValue expected
  end.

Definition swap (newValue : Z) : Atomic Z :=
  let result := newValue in
  match a with
  | ARM =>
      result <- sync_lock_test_and_set newValue ;;
      sync_lock_release ;;
      ret result
  | X86 => xchg result
  end.

Definition load : Atomic Z :=
  match a with
  | ARM =>
      sync_synchronize ;;
      result <- deref ;;
      sync_synchronize ;;
      ret result
  | X86 =>
      mfence ;;
      result <- deref ;;
      mfence ;;
      ret result
  end.

Definition loadRelaxed : Atomic Z := deref.

Definition store (newValue : Z) : Atomic unit :=
  match a with
  | ARM =>
      sync_synchronize ;;
      assign newValue ;;
      sync_synchronize
  | X86 =>
      mfence ;;
      assign newValue ;;
      mfence
  end.

(** The body of [fetchAndAdd] after the declaration of [result]; [result]
    is the content of that local variable when the body starts.  On x86
    [result] is the read-write register operand [[src] "+r" (result)] of
    [xadd]; [increment] itself is not an operand of the instruction. *)
Definition fetchAndAdd_body (result increment : Z) : Atomic Z :=
  match a with
  | ARM =>
      result <- sync_fetch_and_add bits increment ;;
      ret result
  | X86 => lock_xadd bits result
  end.

(** [T result = increment; ...] *)
Definition fetchAndAdd (increment : Z) : Atomic Z :=
  let result := increment in
  fetchAndAdd_body result increment.

(** [fetchAndAdd] with the declaration left without initialiser,
    [T result;]: the local holds whatever [indeterminate] content its
    storage had. *)
Definition fetchAndAdd_uninitialised (indeterminate increment : Z) : Atomic Z :=
  let result := indeterminate in
  fetchAndAdd_body result increment.

(** A call through the class's public interface. *)
Definition call (op : operation) (cell : Z) : outcome :=
  match op with
  | CompareAndSwap expected newValue =>
      let '(r, cell') := compareAndSwap expected newValue cell in
      Returns (Some r) cell'
  | Swap newValue =>
      let '(r, cell') := swap newValue cell in Returns (Some r) cell'
  | Load => let '(r, cell') := load cell in Returns (Some r) cell'
  | LoadRelaxed =>
      let '(r, cell') := loadRelaxed cell in Returns (Some r) cell'
  | Store newValue =>
      let '(_, cell') := store newValue cell in Returns None cell'
  | FetchAndAdd increment =>
      let '(r, cell') := fetchAndAdd increment cell in
      Returns (Some r) cell'
  end.

End Primary.
End AtomicIntrinsics.

(** ** A 32-bit x86 machine, as far as the [cmpxchg8b] block needs it *)

Module IA32.

Inductive reg : Type := EAX | EBX | ECX | EDX | ESI | EDI | ESP.

Record regfile : Type := Regs { eax : Z; ebx : Z; ecx : Z; edx : Z; esi : Z; edi : Z; esp : Z }.

Definition get_reg (rf : regfile) (r : reg) : Z :=
  match r with
  | EAX => eax rf | EBX => ebx rf | ECX => ecx rf | EDX => edx rf
  | ESI => esi rf | EDI => edi rf | ESP => esp rf
  end.

Definition set_reg (rf : regfile) (r : reg) (v : Z) : regfile :=
  match r with
  | EAX => Regs v (ebx rf) (ecx rf) (edx rf) (esi rf) (edi rf) (esp rf)
  | EBX => Regs (eax rf) v (ecx rf) (edx rf) (esi rf) (edi rf) (esp rf)
  | ECX => Regs (eax rf) (ebx rf) v (edx rf) (esi rf) (edi rf) (esp rf)
  | EDX => Regs (eax rf) (ebx rf) (ecx rf) v (esi rf) (edi rf) (esp rf)
  | ESI => Regs (eax rf) (ebx rf) (ecx rf) (edx rf) v (edi rf) (esp rf)
  | EDI => Regs (eax rf) (ebx rf) (ecx rf) (edx rf) (esi rf) v (esp rf)
  | ESP => Regs (eax rf) (ebx rf) (ecx rf) (edx rf) (esi rf) (edi rf) v
  end.

(** Memory: the 32-bit word found at a byte address.  One word is kept per
    address, so the model is meant for accesses that either coincide or do
    not overlap, as those of a laid-out frame are; statements about memory
    below speak of such words only. *)
Definition memory : Type := Z -> Z.

Definition store32 (m : memory) (addr v : Z) : memory :=
  fun addr' => if addr' =? addr then v else m addr'.

(** Low and high 32-bit halves of a 64-bit word, and their reunion. *)
Definition lo (v : Z) : Z := wrap 32 v.
Definition hi (v : Z) : Z := wrap 32 (v / modulus 32).
Definition combine (l h : Z) : Z := l + modulus 32 * h.

(** A 64-bit word in memory, little-endian: low half first. *)
Definition store64 (m : memory) (addr v : Z) : memory :=
  store32 (store32 m addr (lo v)) (addr + 4) (hi v).

Definition load64 (m : memory) (addr : Z) : Z :=
  combine (m addr) (m (addr + 4)).

Record machine : Type := Machine { regs : regfile; mem : memory }.

Inductive instr : Type :=
  | Push (r : reg)                            (* push %r *)
  | Pop (r : reg)                             (* pop %r *)
  | MovLoad (disp : Z) (base dst : reg)       (* mov disp(%base), %dst *)
  | MovStore (src : reg) (disp : Z) (base : reg)  (* mov %src, disp(%base) *)
  | LockCmpxchg8b (base : reg).               (* lock cmpxchg8b (%base) *)

(** Effective address [disp(%base)]. *)
Definition ea (rf : regfile) (disp : Z) (base : reg) : Z :=
  wrap 32 (get_reg rf base + disp).

Definition exec (i : instr) (s : machine) : machine :=
  match i with
  | Push r =>
      let sp := wrap 32 (get_reg (regs s) ESP - 4) in
      Machine (set_reg (regs s) ESP sp) (store32 (mem s) sp (get_reg (regs s) r))
  | Pop r =>
      let sp := get_reg (regs s) ESP in
      Machine (set_reg (set_reg (regs s) r (mem s sp)) ESP (wrap 32 (sp + 4)))
              (mem s)
  | MovLoad disp base dst =>
      Machine (set_reg (regs s) dst (mem s (ea (regs s) disp base))) (mem s)
  | MovStore src disp base =>
      Machine (regs s) (store32 (mem s) (ea (regs s) disp base) (get_reg (regs s) src))
  | LockCmpxchg8b base =>
      (* compare EDX:EAX with the 64-bit operand; equal: the operand
         receives ECX:EBX; different: EDX:EAX receives the operand *)
      let addr := ea (regs s) 0 base in
      let m_lo := mem s addr in
      let m_hi := mem s (wrap 32 (addr + 4)) in
      if (get_reg (regs s) EAX =? m_lo) && (get_reg (regs s) EDX =? m_hi)
      then Machine (regs s)
                   (store32 (store32 (mem s) addr (get_reg (regs s) EBX))
                            (wrap 32 (addr + 4)) (get_reg (regs s) ECX))
      else Machine (set_reg (set_reg (regs s) EAX m_lo) EDX m_hi) (mem s)
  end.

Definition run (p : list instr) (s : machine) : machine :=
  fold_left (fun s' i => exec i s') p s.

End IA32.

(** ** [AtomicIntrinsics<T>], [sizeof(T) > sizeof(void* )]: the 64-bit word
     on a 32-bit machine *)

Module AtomicIntrinsicsOversized.
Import IA32.

(** Where a call of [compareAndSwap] finds its operands on IA-32: the
    address held by [dest], the addresses of the locals [result] and
    [newValue], the stack pointer at the [asm] statement, and what the
    other registers and the rest of memory hold. *)
Record frame : Type := Frame {
  dest : Z;
  addr_result : Z;
  addr_newValue : Z;
  stack_pointer : Z;
  other_regs : regfile;
  other_mem : memory
  }.

(** Two byte ranges [a, a + la) and [b, b + lb) do not overlap. *)
Definition disjoint (a la b lb : Z) : Prop := a + la <= b \/ b + lb <= a.

(** A frame a compiler can lay out: every object lies inside the 32-bit
    address space, the three 8-byte objects do not overlap each other,
    and none reaches into the 16 bytes below the stack pointer that the
    four [push]es use. *)
Definition frame_ok (fr : frame) : Prop :=
  (0 <= dest fr /\ dest fr + 8 <= modulus 32) /\
  (0 <= addr_result fr /\ addr_result fr + 8 <= modulus 32) /\
  (0 <= addr_newValue fr /\ addr_newValue fr + 8 <= modulus 32) /\
  (16 <= stack_pointer fr /\ stack_pointer fr < modulus 32) /\
  disjoint (dest fr) 8 (addr_result fr) 8 /\
  disjoint (dest fr) 8 (addr_newValue fr) 8 /\
  disjoint (addr_result fr) 8 (addr_newValue fr) 8 /\
  disjoint (stack_pointer fr - 16) 16 (dest fr) 8 /\
  disjoint (stack_pointer fr - 16) 16 (addr_result fr) 8 /\
  disjoint (stack_pointer fr - 16) 16 (addr_newValue fr) 8.

(** The [asm volatile] statement of [compareAndSwap]. *)
Definition cmpxchg8b_block : list instr :=
  [ Push EAX;
    Push EBX;
    Push ECX;
    Push EDX;
    MovLoad 0 EDX EBX;
    MovLoad 4 EDX ECX;
    MovLoad 0 EDI EAX;
    MovLoad 4 EDI EDX;
    LockCmpxchg8b ESI;
    MovStore EAX 0 EDI;
    MovStore EDX 4 EDI;
    Pop EDX;
    Pop ECX;
    Pop EBX;
    Pop EAX ].

Section Oversized.

Variable a : arch.
Variable fr : frame.

(** The machine at the [asm] statement: [*dest] holds the cell, [result]
    was initialised with [expected], the parameter [newValue] is in its
    slot, and the operand constraints ["S" (dest)], ["D" (&result)],
    ["d" (&newValue)] have loaded ESI, EDI and EDX. *)
Definition at_asm (expected newValue cell : Z) : machine :=
  Machine
    (set_reg (set_reg (set_reg (set_reg (other_regs fr)
       ESP (stack_pointer fr))
       ESI (dest fr))
       EDI (addr_result fr))
       EDX (addr_newValue fr))
    (store64 (store64 (store64 (other_mem fr)
       (dest fr) cell)
       (addr_result fr) expected)
       (addr_newValue fr) newValue).

Definition compareAndSwap (expected newValue : Z) : Atomic Z :=
  match a with
  | ARM => sync_val_compare_and_swap expected newValue
  | X86 =>
      fun cell =>
        let s := run cmpxchg8b_block (at_asm expected newValue cell) in
        (load64 (mem s) (addr_result fr), load64 (mem s) (dest fr))
  end.

(** The loops below are given the other threads' [env] and the [fuel] the
  model may spend; [expected] and [actual] leave the body as a pair. *)
Variable env : interference.

(** [while (actual != expected)] *)
Definition again (ea : Z * Z) : bool :=
  let '(expected, actual) := ea in negb (actual =? expected).

Definition swap_body (newValue : Z) (i : nat) : Atomic (Z * Z) :=
  interfere (before_read env i) ;;
  expected <- deref ;;
  interfere (before_cas env i) ;;
  actual <- compareAndSwap expected newValue ;;
  ret (expected, actual).

(** [return actual;] *)
Definition return_actual (c : completed (Z * Z)) : completed Z :=
  Completed (snd (value c)) (iterations c) (cell_after c).

Definition swap (fuel : nat) (newValue : Z) (cell : Z) : option (completed Z) :=
  option_map return_actual (do_while (swap_body newValue) again fuel 0%nat cell).

Definition load : Atomic Z := compareAndSwap 0 0.

Definition store (fuel : nat) (newValue : Z) (cell : Z) : option (completed unit) :=
  option_map (fun c => Completed tt (iterations c) (cell_after c))
             (swap fuel newValue cell).

Definition fetchAndAdd_body (increment : Z) (i : nat) : Atomic (Z * Z) :=
  interfere (before_read env i) ;;
  expected <- load ;;
  interfere (before_cas env i) ;;
  actual <- compareAndSwap expected (wrap 64 (expected + increment)) ;;
  ret (expected, actual).

Definition fetchAndAdd (fuel : nat) (increment : Z) (cell : Z) : option (completed Z) :=
  option_map return_actual
             (do_while (fetchAndAdd_body increment) again fuel 0%nat cell).

(** A call through the class's public interface; the class declares no
    [loadRelaxed]. *)
Definition call (fuel : nat) (op : operation) (cell : Z) : outcome :=
  match op with
  | CompareAndSwap expected newValue =>
      let '(r, cell') := compareAndSwap expected newValue cell in
      Returns (Some r) cell'
  | Swap newValue =>
      match swap fuel newValue cell with
      | Some c => Returns (Some (value c)) (cell_after c)
      | None => OutOfFuel
      end
  | Load => let '(r, cell') := load cell in Returns (Some r) cell'
  | LoadRelaxed => NoSuchMember
  | Store newValue =>
      match store fuel newValue cell with
      | Some c => Returns None (cell_after c)
      | None => OutOfFuel
      end
  | FetchAndAdd increment =>
      match fetchAndAdd fuel increment cell with
      | Some c => Returns (Some (value c)) (cell_after c)
      | None => OutOfFuel
      end
  end.

End Oversized.
End AtomicIntrinsicsOversized.

(** ** Auxiliary notions for the statements *)

(** [n] calls of [op] in a row: the values returned, in order, and the
    cell afterwards. *)
Fixpoint repeated (op : Atomic Z) (n : nat) (cell : Z) : list Z * Z :=
  match n with
  | O => ([], cell)
  | S n' =>
      let '(r, cell') := op cell in
      let '(rs, cell'') := repeated op n' cell' in
      (r :: rs, cell'')
  end.

(** The arguments of a call are words of the given width. *)
Definition operands_ok (bits : Z) (op : operation) : Prop :=
  match op with
  | CompareAndSwap expected newValue => is_word bits expected /\ is_word bits newValue
  | Swap newValue | Store newValue => is_word bits newValue
  | FetchAndAdd increment => is_word bits increment
  | Load | LoadRelaxed => True
  end.

(** A frame used by the examples: the cell at 0x1000, [result] and
    [newValue] in the caller's frame above the stack pointer 0x8000. *)
Definition example_frame : AtomicIntrinsicsOversized.frame :=
  AtomicIntrinsicsOversized.Frame 4096 32784 32776 32768
    (IA32.Regs 1 2 3 4 5 6 7) (fun _ => 0).

(** Other threads that add one to the cell before every read, and also
    between the read and the compare-and-swap in the first two runs of a
    loop body. *)
Definition busy_twice : interference :=
  Interference
    (fun _ cell => wrap 64 (cell + 1))
    (fun i cell => if (i <? 2)%nat then wrap 64 (cell + 1) else cell).

(** A caller's calls one after the other on the same cell: the outcome of
    each, in order, and the cell afterwards.  A call that does not return
    ends the sequence. *)
Fixpoint calls (call : operation -> Z -> outcome) (ops : list operation)
    (cell : Z) : list outcome * Z :=
  match ops with
  | [] => ([], cell)
  | op :: rest =>
      match call op cell with
      | Returns r cell' =>
          let '(outcomes, cell'') := calls call rest cell' in
          (Returns r cell' :: outcomes, cell'')
      | stuck => ([stuck], cell)
      end
  end.
(** The course of a retry loop that began on [cell]: the cell at the start
    of run [i] when the compare-and-swap of every earlier run failed (a
    failed compare-and-swap leaves the cell as the other threads made
    it), the cell as run [i] reads it into [expected], and the cell as the
    compare-and-swap of run [i] then finds it. *)
Fixpoint cell_at (env : interference) (i : nat) (cell : Z) : Z :=
  match i with
  | O => cell
  | S j => before_cas env j (before_read env j (cell_at env j cell))
  end.

Definition read_at (env : interference) (i : nat) (cell : Z) : Z :=
  before_read env i (cell_at env i cell).

Definition found_at (env : interference) (i : nat) (cell : Z) : Z :=
  before_cas env i (read_at env i cell).

(** * Properties *)

(** ** Words *)

Lemma modulus_32 : modulus 32 = 4294967296.
Proof. reflexivity. Qed.

Lemma modulus_64 : modulus 64 = 4294967296 * 4294967296.
Proof. reflexivity. Qed.

Lemma wrap_small (bits v : Z) : is_word bits v -> wrap bits v = v.
Proof. intros H. apply Z.mod_small. exact H. Qed.

Lemma wrap_is_word (v : Z) : is_word 64 (wrap 64 v).
Proof.
  unfold is_word, wrap. apply Z.mod_pos_bound. rewrite modulus_64. lia.
Qed.

Lemma is_word_64 (v : Z) : 0 <= v < 18446744073709551616 -> is_word 64 v.
Proof. unfold is_word. now rewrite modulus_64. Qed.

(** ** The outcome of a compare-and-swap, in the words of the contract *)

Lemma cas_outcome_contract (v e n : Z) (r : Z * Z) :
  r = (v, if v =? e then n else v) ->
  (r = (e, n) <-> v = e) /\ (v <> e -> r = (v, v)).
Proof.
  intros ->. destruct (Z.eqb_spec v e) as [->|Hne].
  - split; [tauto | congruence].
  - split; [split; [congruence | tauto] | reflexivity].
Qed.

(** ** The primary template *)

Lemma native_compareAndSwap_eq (a : arch) (v e n : Z) :
  AtomicIntrinsics.compareAndSwap a e n v = (v, if v =? e then n else v).
Proof.
  destruct a; cbn [AtomicIntrinsics.compareAndSwap].
  - unfold lock_cmpxchg. rewrite Z.eqb_sym.
    destruct (Z.eqb_spec v e); congruence.
  - reflexivity.
Qed.

Lemma native_swap_x86 (v n : Z) : AtomicIntrinsics.swap X86 n v = (v, n).
Proof. reflexivity. Qed.

Lemma native_swap_arm (v n : Z) : AtomicIntrinsics.swap ARM n v = (v, 0).
Proof. reflexivity. Qed.

Lemma native_load_eq (a : arch) (v : Z) : AtomicIntrinsics.load a v = (v, v).
Proof. destruct a; reflexivity. Qed.

Lemma native_loadRelaxed_eq (v : Z) : AtomicIntrinsics.loadRelaxed v = (v, v).
Proof. reflexivity. Qed.

Lemma native_store_eq (a : arch) (v n : Z) : AtomicIntrinsics.store a n v = (tt, n).
Proof. destruct a; reflexivity. Qed.

Lemma native_fetchAndAdd_eq (a : arch) (bits v i : Z) :
  AtomicIntrinsics.fetchAndAdd a bits i v = (v, wrap bits (v + i)).
Proof. destruct a; reflexivity. Qed.

(** ** Loops *)

Lemma do_while_once {A : Type} (body : nat -> Atomic A) (again : A -> bool)
    (fuel i : nat) (cell cell' : Z) (x : A) :
  body i cell = (x, cell') -> again x = false ->
  do_while body again (S fuel) i cell = Some (Completed x (S i) cell').
Proof. intros Hb Ha. cbn [do_while]. now rewrite Hb, Ha. Qed.

(** A loop whose body keeps [P] and whose test fails in run [q] has left
    after at most [q + 1] runs. *)
Lemma do_while_leaves {A : Type} (body : nat -> Atomic A) (again : A -> bool)
    (P : Z -> Prop) (q : nat) :
  (forall i c, P c -> P (snd (body i c))) ->
  (forall c, P c -> again (fst (body q c)) = false) ->
  forall k i fuel c,
    (i + k = q)%nat -> (k < fuel)%nat -> P c ->
    exists r, do_while body again fuel i c = Some r /\ (iterations r <= S q)%nat.
Proof.
  intros Hkeep Hquiet. induction k as [|k IH]; intros i fuel c Hq Hfuel Hc.
  - destruct fuel as [|fuel]; [lia|]. replace i with q in * by lia.
    specialize (Hquiet c Hc). cbn [do_while].
    destruct (body q c) as [x c'] eqn:Hb. cbn [fst] in Hquiet. rewrite Hquiet.
    eexists; split; [reflexivity | cbn; lia].
  - destruct fuel as [|fuel]; [lia|]. cbn [do_while].
    pose proof (Hkeep i c Hc) as Hc'.
    destruct (body i c) as [x c'] eqn:Hb. cbn [snd] in Hc'.
    destruct (again x).
    + apply IH; [lia | lia | exact Hc'].
    + eexists; split; [reflexivity | cbn; lia].
Qed.

(** ** The oversized specialisation *)

Module OversizedFacts.
Import IA32 AtomicIntrinsicsOversized.

Lemma combine_lo_hi (v : Z) : is_word 64 v -> combine (lo v) (hi v) = v.
Proof.
  unfold is_word, combine, lo, hi, wrap. rewrite modulus_64, modulus_32. intros H.
  rewrite (Z.mod_small (v / 4294967296)).
  - pose proof (Z.div_mod v 4294967296). lia.
  - split; [apply Z.div_pos; lia | apply Z.div_lt_upper_bound; lia].
Qed.

(** [cmpxchg8b] compares the halves; on words that is comparing the words. *)
Lemma halves_eqb (e v : Z) :
  is_word 64 e -> is_word 64 v ->
  (lo e =? lo v) && (hi e =? hi v) = (e =? v).
Proof.
  intros He Hv.
  destruct (Z.eqb_spec e v) as [->|Hne].
  - now rewrite !Z.eqb_refl.
  - apply andb_false_iff.
    destruct (Z.eqb_spec (lo e) (lo v)) as [Hl|]; [right|now left].
    apply Z.eqb_neq. intros Hh. apply Hne.
    rewrite <- (combine_lo_hi e He), <- (combine_lo_hi v Hv). congruence.
Qed.

Lemma store32_same (m : memory) (p x q : Z) : q = p -> store32 m p x q = x.
Proof. unfold store32. intros ->. now rewrite Z.eqb_refl. Qed.

Lemma store32_other (m : memory) (p x q : Z) : q <> p -> store32 m p x q = m q.
Proof. unfold store32. intros H. apply Z.eqb_neq in H. now rewrite H. Qed.

Lemma wrap32_addr (p : Z) : 0 <= p < 4294967296 -> wrap 32 p = p.
Proof. intros H. apply wrap_small. unfold is_word. now rewrite modulus_32. Qed.

(** Resolve address wrap-around and reads through a chain of stores. *)
Ltac lookup :=
  repeat match goal with
    | |- context [wrap 32 ?p] => rewrite (wrap32_addr p) by lia
    | |- context [store32 ?m ?p ?x ?q] =>
        first [ rewrite (store32_same m p x q) by lia
              | rewrite (store32_other m p x q) by lia ]
    end.

(** Execute the next instruction of the block. *)
Ltac step :=
  match goal with
  | |- context [fold_left ?f (?i :: ?p) ?s] =>
      change (fold_left f (i :: p) s) with (fold_left f p (exec i s));
      cbn [exec regs mem get_reg set_reg eax ebx ecx edx esi edi esp];
      unfold ea; cbn [get_reg regs eax ebx ecx edx esi edi esp];
      lookup
  end.

(** The [asm] block does what one [cmpxchg8b] on the cell does. *)
Lemma compareAndSwap_x86 (fr : frame) (v e n : Z) :
  frame_ok fr -> is_word 64 v -> is_word 64 e -> is_word 64 n ->
  compareAndSwap X86 fr e n v = if v =? e then (e, n) else (v, v).
Proof.
  intros Hfr Hv He Hn.
  unfold compareAndSwap, at_asm, cmpxchg8b_block, run, load64, store64.
  unfold frame_ok, disjoint in Hfr. rewrite modulus_32 in Hfr.
  destruct fr as [d r nv sp [a0 b0 c0 d0 s0 i0 p0] om];
    cbn [dest addr_result addr_newValue stack_pointer other_regs other_mem] in *.
  cbn [set_reg eax ebx ecx edx esi edi esp].
  do 9 step.
  rewrite (halves_eqb e v He Hv), Z.eqb_sym.
  destruct (Z.eqb_spec v e) as [->|Hne]; repeat step;
    cbn [fold_left mem]; lookup; now rewrite !combine_lo_hi.
Qed.

(** The block leaves the registers as it found them. *)
Lemma cmpxchg8b_block_restores (fr : frame) (v e n : Z) :
  frame_ok fr -> is_word 64 v -> is_word 64 e -> is_word 64 n ->
  regs (run cmpxchg8b_block (at_asm fr e n v)) = regs (at_asm fr e n v).
Proof.
  intros Hfr Hv He Hn.
  unfold at_asm, cmpxchg8b_block, run, store64.
  unfold frame_ok, disjoint in Hfr. rewrite modulus_32 in Hfr.
  destruct fr as [d r nv sp [a0 b0 c0 d0 s0 i0 p0] om];
    cbn [dest addr_result addr_newValue stack_pointer other_regs other_mem] in *.
  cbn [set_reg eax ebx ecx edx esi edi esp].
  do 9 step.
  rewrite (halves_eqb e v He Hv).
  destruct (e =? v); repeat step; cbn [fold_left regs]; f_equal; lia.
Qed.

Lemma compareAndSwap_eq (a : arch) (fr : frame) (v e n : Z) :
  frame_ok fr -> is_word 64 v -> is_word 64 e -> is_word 64 n ->
  compareAndSwap a fr e n v = (v, if v =? e then n else v).
Proof.
  intros Hfr Hv He Hn. destruct a.
  - rewrite compareAndSwap_x86 by assumption.
    destruct (Z.eqb_spec v e); congruence.
  - reflexivity.
Qed.

Lemma is_word_0 : is_word 64 0.
Proof. apply is_word_64. lia. Qed.

Lemma load_eq (a : arch) (fr : frame) (v : Z) :
  frame_ok fr -> is_word 64 v -> load a fr v = (v, v).
Proof.
  intros Hfr Hv. unfold load.
  rewrite compareAndSwap_eq by auto using is_word_0.
  destruct (Z.eqb_spec v 0); congruence.
Qed.

Section Loops.

Variable a : arch.
Variable fr : frame.
Hypothesis fr_ok : frame_ok fr.
Variable env : interference.
Hypothesis before_read_words :
  forall i c, is_word 64 c -> is_word 64 (before_read env i c).
Hypothesis before_cas_words :
  forall i c, is_word 64 c -> is_word 64 (before_cas env i c).

Lemma swap_body_eq (n : Z) (i : nat) (c : Z) :
  is_word 64 n -> is_word 64 c ->
  let seen := before_read env i c in
  let found := before_cas env i seen in
  swap_body a fr env n i c =
    ((seen, found), if found =? seen then n else found).
Proof.
  intros Hn Hc seen found. unfold swap_body, bind, deref, interfere, ret.
  fold seen. fold found.
  rewrite compareAndSwap_eq by (subst seen found; auto). reflexivity.
Qed.

Lemma fetchAndAdd_body_eq (inc : Z) (i : nat) (c : Z) :
  is_word 64 c ->
  let seen := before_read env i c in
  let found := before_cas env i seen in
  fetchAndAdd_body a fr env inc i c =
    ((seen, found), if found =? seen then wrap 64 (seen + inc) else found).
Proof.
  intros Hc seen found. unfold fetchAndAdd_body, bind, interfere, ret.
  fold seen. rewrite load_eq by (subst seen; auto). fold found.
  rewrite compareAndSwap_eq by (subst seen found; auto using wrap_is_word).
  reflexivity.
Qed.

Lemma swap_body_keeps (n : Z) (i : nat) (c : Z) :
  is_word 64 n -> is_word 64 c -> is_word 64 (snd (swap_body a fr env n i c)).
Proof.
  intros Hn Hc. rewrite swap_body_eq by assumption. cbn [snd].
  destruct (_ =? _); auto.
Qed.

Lemma fetchAndAdd_body_keeps (inc : Z) (i : nat) (c : Z) :
  is_word 64 c -> is_word 64 (snd (fetchAndAdd_body a fr env inc i c)).
Proof.
  intros Hc. rewrite fetchAndAdd_body_eq by assumption. cbn [snd].
  destruct (_ =? _); auto using wrap_is_word.
Qed.

(** Both loops leave by the first run in which the other threads are still. *)
Lemma swap_leaves (q fuel : nat) (n v : Z) :
  is_word 64 n -> is_word 64 v ->
  (forall c, before_cas env q c = c) -> (q < fuel)%nat ->
  exists r, swap a fr env fuel n v = Some r /\ (iterations r <= S q)%nat.
Proof.
  intros Hn Hv Hq Hfuel.
  destruct (do_while_leaves (swap_body a fr env n) again (is_word 64) q)
    with (k := q) (i := 0%nat) (fuel := fuel) (c := v) as [r [Hr Hi]];
    auto using swap_body_keeps.
  - intros c Hc. rewrite swap_body_eq by assumption. cbn [fst again].
    now rewrite Hq, Z.eqb_refl.
  - unfold swap. rewrite Hr. eexists; split; [reflexivity | exact Hi].
Qed.

Lemma fetchAndAdd_leaves (q fuel : nat) (inc v : Z) :
  is_word 64 v ->
  (forall c, before_cas env q c = c) -> (q < fuel)%nat ->
  exists r, fetchAndAdd a fr env fuel inc v = Some r /\ (iterations r <= S q)%nat.
Proof.
  intros Hv Hq Hfuel.
  destruct (do_while_leaves (fetchAndAdd_body a fr env inc) again (is_word 64) q)
    with (k := q) (i := 0%nat) (fuel := fuel) (c := v) as [r [Hr Hi]];
    auto using fetchAndAdd_body_keeps.
  - intros c Hc. rewrite fetchAndAdd_body_eq by assumption. cbn [fst again].
    now rewrite Hq, Z.eqb_refl.
  - unfold fetchAndAdd. rewrite Hr. eexists; split; [reflexivity | exact Hi].
Qed.

End Loops.

Lemma quiet_words (i : nat) (c : Z) :
  is_word 64 c ->
  is_word 64 (before_read quiet i c) /\ is_word 64 (before_cas quiet i c).
Proof. auto. Qed.

(** Without interference each loop runs its body once. *)
Lemma swap_quiet (a : arch) (fr : frame) (fuel : nat) (n v : Z) :
  frame_ok fr -> is_word 64 n -> is_word 64 v ->
  swap a fr quiet (S fuel) n v = Some (Completed v 1%nat n).
Proof.
  intros Hfr Hn Hv. unfold swap.
  rewrite (do_while_once _ _ fuel 0%nat v n (v, v)).
  - reflexivity.
  - rewrite swap_body_eq by (auto; intros; now apply quiet_words).
    unfold quiet. cbn [before_read before_cas].
    now rewrite Z.eqb_refl.
  - cbn [again]. now rewrite Z.eqb_refl.
Qed.

Lemma store_quiet (a : arch) (fr : frame) (fuel : nat) (n v : Z) :
  frame_ok fr -> is_word 64 n -> is_word 64 v ->
  store a fr quiet (S fuel) n v = Some (Completed tt 1%nat n).
Proof.
  intros Hfr Hn Hv. unfold store. now rewrite swap_quiet.
Qed.

Lemma fetchAndAdd_quiet (a : arch) (fr : frame) (fuel : nat) (inc v : Z) :
  frame_ok fr -> is_word 64 v ->
  fetchAndAdd a fr quiet (S fuel) inc v =
    Some (Completed v 1%nat (wrap 64 (v + inc))).
Proof.
  intros Hfr Hv. unfold fetchAndAdd.
  rewrite (do_while_once _ _ fuel 0%nat v (wrap 64 (v + inc)) (v, v)).
  - reflexivity.
  - rewrite fetchAndAdd_body_eq by (auto; intros; now apply quiet_words).
    unfold quiet. cbn [before_read before_cas].
    now rewrite Z.eqb_refl.
  - cbn [again]. now rewrite Z.eqb_refl.
Qed.

End OversizedFacts.

(** * The claims *)

Import AtomicIntrinsicsOversized OversizedFacts.

(** Decide a side condition on concrete numbers: a word bound or the
    layout of a frame. *)
Ltac evaluated :=
  unfold frame_ok, disjoint, is_word, modulus; simpl; lia.

(** C1. [compareAndSwap(cell, e, n)] on a cell holding [v] sets the cell to
    [n] and returns [e] if and only if [v = e]; otherwise the cell is left
    unchanged and the call returns [v].  This holds for the primary
    template and for the oversized specialisation, in both branches of
    [#if defined(__arm__)]. *)
Theorem compareAndSwap_contract (a : arch) :
  (forall v e n : Z,
     let r := AtomicIntrinsics.compareAndSwap a e n v in
     (r = (e, n) <-> v = e) /\ (v <> e -> r = (v, v))) /\
  (forall (fr : frame) (v e n : Z),
     frame_ok fr -> is_word 64 v -> is_word 64 e -> is_word 64 n ->
     let r := AtomicIntrinsicsOversized.compareAndSwap a fr e n v in
     (r = (e, n) <-> v = e) /\ (v <> e -> r = (v, v))).
Proof.
  split.
  - intros v e n r. apply cas_outcome_contract, native_compareAndSwap_eq.
  - intros fr v e n Hfr Hv He Hn r.
    apply cas_outcome_contract, compareAndSwap_eq; assumption.
Qed.

(** The cell holds 5: [compareAndSwap(cell, 5, 7)] returns 5 and the cell
    becomes 7; at once [compareAndSwap(cell, 5, 9)] returns 7 and the cell
    stays 7. *)
Lemma compareAndSwap_contract_witness :
  (frame_ok example_frame /\ is_word 64 5 /\ is_word 64 7 /\ is_word 64 9) /\
  AtomicIntrinsicsOversized.compareAndSwap X86 example_frame 5 7 5 = (5, 7) /\
  AtomicIntrinsicsOversized.compareAndSwap X86 example_frame 5 9 7 = (7, 7).
Proof.
  split; [repeat split; evaluated|]. split.
  - apply (proj2 (compareAndSwap_contract X86) example_frame 5 5 7);
      (evaluated || reflexivity).
  - apply (proj2 (compareAndSwap_contract X86) example_frame 7 5 9);
      evaluated.
Defined.

(** C2. The oversized [load], that is [compareAndSwap(cell, 0, 0)], returns
    the cell's value [v] and leaves the cell holding [v], also when
    [v = 0], where the compare-and-swap succeeds and writes the same zero. *)
Theorem oversized_load_returns_cell (a : arch) (fr : frame) (v : Z) :
  frame_ok fr -> is_word 64 v ->
  AtomicIntrinsicsOversized.load a fr v =
    AtomicIntrinsicsOversized.compareAndSwap a fr 0 0 v /\
  AtomicIntrinsicsOversized.load a fr v = (v, v).
Proof.
  intros Hfr Hv. split; [reflexivity | now apply load_eq].
Qed.

(** The cell holds 0: the oversized [load] returns 0 and leaves 0. *)
Lemma oversized_load_returns_cell_witness :
  (frame_ok example_frame /\ is_word 64 0) /\
  AtomicIntrinsicsOversized.load X86 example_frame 0 = (0, 0).
Proof.
  split; [split; evaluated|].
  apply (oversized_load_returns_cell X86 example_frame 0); evaluated.
Defined.

(** C3. In the ARM branch of the primary template [swap(cell, 10)] on a
    cell holding 3 returns 3 and leaves the cell holding 0, not 10:
    [__sync_lock_release] overwrites what [__sync_lock_test_and_set] has
    just stored, and so it does for every cell and every new value.  The
    x86 branch and the oversized retry loop leave 10. *)
Theorem native_swap_arm_loses_newValue :
  AtomicIntrinsics.swap ARM 10 3 = (3, 0) /\
  (forall v n : Z, AtomicIntrinsics.swap ARM n v = (v, 0)) /\
  AtomicIntrinsics.swap X86 10 3 = (3, 10) /\
  AtomicIntrinsicsOversized.swap ARM example_frame quiet 1 10 3
    = Some (Completed 3 1%nat 10) /\
  AtomicIntrinsicsOversized.swap X86 example_frame quiet 1 10 3
    = Some (Completed 3 1%nat 10).
Proof. repeat split; vm_compute; reflexivity. Qed.

(** C4. [fetchAndAdd(cell, i)] on a cell holding [v] returns [v] and leaves
    the cell holding [v + i] in the width of [T], in the primary template
    and, when no other thread interferes, in the oversized specialisation
    (whose loop then runs once). *)
Theorem fetchAndAdd_contract (a : arch) :
  (forall bits v i : Z,
     AtomicIntrinsics.fetchAndAdd a bits i v = (v, wrap bits (v + i))) /\
  (forall (fr : frame) (fuel : nat) (v i : Z),
     frame_ok fr -> is_word 64 v -> is_word 64 i ->
     AtomicIntrinsicsOversized.fetchAndAdd a fr quiet (S fuel) i v =
       Some (Completed v 1%nat (wrap 64 (v + i)))).
Proof.
  split.
  - intros. apply native_fetchAndAdd_eq.
  - intros. now apply fetchAndAdd_quiet.
Qed.

(** The oversized cell holds [2^64 - 1]: adding 2 returns [2^64 - 1] and
    leaves 1. *)
Lemma fetchAndAdd_contract_witness :
  (frame_ok example_frame /\ is_word 64 18446744073709551615 /\ is_word 64 2) /\
  AtomicIntrinsicsOversized.fetchAndAdd X86 example_frame quiet 1 2
    18446744073709551615 = Some (Completed 18446744073709551615 1%nat 1).
Proof.
  split; [repeat split; evaluated|].
  apply (proj2 (fetchAndAdd_contract X86) example_frame 0%nat
           18446744073709551615 2); evaluated.
Defined.

(** C5, as stated, fails: the oversized specialisation declares no
    [loadRelaxed], so on that operation the two strategies do not come to
    the same outcome. *)
Lemma strategies_differ_on_loadRelaxed :
  AtomicIntrinsicsOversized.call X86 example_frame quiet 1 LoadRelaxed 5
    = NoSuchMember /\
  AtomicIntrinsics.call X86 64 LoadRelaxed 5 = Returns (Some 5) 5 /\
  AtomicIntrinsicsOversized.call X86 example_frame quiet 1 LoadRelaxed 5
    <> AtomicIntrinsics.call X86 64 LoadRelaxed 5.
Proof. repeat split. discriminate. Qed.

(** C5, amended.  The oversized specialisation implements five of the six
    operations: [compareAndSwap], [swap], [load], [store], [fetchAndAdd].
    For each of them and every input, run without interference, the
    oversized implementation, in either of its [#if] branches [a], returns
    the same value and leaves the cell holding the same value as the
    primary template instantiated at the same 64-bit word, in either of
    its branches [b]; for [swap] the comparison is with the x86 branch of
    the primary template. *)
Theorem strategies_agree (a b : arch) (fr : frame) (fuel : nat)
    (op : operation) (v : Z) :
  frame_ok fr -> is_word 64 v -> operands_ok 64 op ->
  op <> LoadRelaxed ->
  b = X86 \/ (forall n, op <> Swap n) ->
  AtomicIntrinsicsOversized.call a fr quiet (S fuel) op v =
    AtomicIntrinsics.call b 64 op v.
Proof.
  intros Hfr Hv Hop Hrel Hswap.
  destruct op as [e n|n| | |n|i];
    cbn [operands_ok] in Hop;
    cbn [AtomicIntrinsicsOversized.call AtomicIntrinsics.call].
  - destruct Hop as [He Hn].
    now rewrite compareAndSwap_eq, native_compareAndSwap_eq.
  - destruct Hswap as [->|Hns]; [|now destruct (Hns n)].
    now rewrite swap_quiet, native_swap_x86.
  - now rewrite load_eq, native_load_eq.
  - now destruct Hrel.
  - now rewrite store_quiet, native_store_eq.
  - now rewrite fetchAndAdd_quiet, native_fetchAndAdd_eq.
Qed.

(** The oversized [swap] of the ARM branch against the x86 [swap] of the
    primary template: [swap(cell, 10)] on a cell holding 3. *)
Lemma strategies_agree_witness :
  (frame_ok example_frame /\ is_word 64 3 /\ operands_ok 64 (Swap 10)) /\
  AtomicIntrinsicsOversized.call ARM example_frame quiet 1 (Swap 10) 3 =
    AtomicIntrinsics.call X86 64 (Swap 10) 3.
Proof.
  split; [repeat split; evaluated|].
  apply (strategies_agree ARM X86 example_frame 0%nat (Swap 10) 3);
    [evaluated | evaluated | simpl; evaluated | discriminate | now left].
Defined.

(** C6. On the oversized specialisation, with no concurrent writer,
    [store(cell, V2)] on a cell holding [V1] followed by [load(cell)]
    returns exactly [V2]; [store] is [swap] with the returned previous
    value dropped. *)
Theorem oversized_store_then_load (a : arch) (fr : frame) (fuel : nat)
    (V1 V2 : Z) :
  frame_ok fr -> is_word 64 V1 -> is_word 64 V2 ->
  (exists stored,
     AtomicIntrinsicsOversized.store a fr quiet (S fuel) V2 V1 = Some stored /\
     AtomicIntrinsicsOversized.load a fr (cell_after stored) = (V2, V2)) /\
  option_map cell_after (AtomicIntrinsicsOversized.store a fr quiet (S fuel) V2 V1) =
    option_map cell_after (AtomicIntrinsicsOversized.swap a fr quiet (S fuel) V2 V1) /\
  AtomicIntrinsicsOversized.swap a fr quiet (S fuel) V2 V1 =
    Some (Completed V1 1%nat V2).
Proof.
  intros Hfr H1 H2. repeat split.
  - exists (Completed tt 1%nat V2). split.
    + now apply store_quiet.
    + cbn [cell_after]. now apply load_eq.
  - unfold AtomicIntrinsicsOversized.store.
    now destruct (AtomicIntrinsicsOversized.swap a fr quiet (S fuel) V2 V1).
  - now apply swap_quiet.
Qed.

Lemma oversized_store_then_load_witness :
  (frame_ok example_frame /\ is_word 64 81985529216486895 /\
   is_word 64 18364758544493064720) /\
  exists stored,
    AtomicIntrinsicsOversized.store X86 example_frame quiet 1
      18364758544493064720 81985529216486895 = Some stored /\
    AtomicIntrinsicsOversized.load X86 example_frame (cell_after stored) =
      (18364758544493064720, 18364758544493064720).
Proof.
  split; [repeat split; evaluated|].
  apply (oversized_store_then_load X86 example_frame 0%nat
           81985529216486895 18364758544493064720); evaluated.
Defined.

(** C7. No operation of either strategy reports an error: every call of a
    declared operation returns.  The retry loops of the oversized [swap]
    and [fetchAndAdd] have left by the first run [q] of their body in
    which no other thread changes the cell between the read of [expected]
    and the compare-and-swap, whatever the other threads do elsewhere; and
    without interference they run their body exactly once. *)
Theorem operations_total (a : arch) (fr : frame) (env : interference)
    (q fuel : nat) (v n : Z) :
  frame_ok fr -> is_word 64 v -> is_word 64 n ->
  (forall i c, is_word 64 c ->
     is_word 64 (before_read env i c) /\ is_word 64 (before_cas env i c)) ->
  (forall c, before_cas env q c = c) ->
  (q < fuel)%nat ->
  (exists r, AtomicIntrinsicsOversized.swap a fr env fuel n v = Some r /\
             (iterations r <= S q)%nat) /\
  (exists r, AtomicIntrinsicsOversized.fetchAndAdd a fr env fuel n v = Some r /\
             (iterations r <= S q)%nat) /\
  (exists r, AtomicIntrinsicsOversized.swap a fr quiet fuel n v = Some r /\
             iterations r = 1%nat) /\
  (exists r, AtomicIntrinsicsOversized.fetchAndAdd a fr quiet fuel n v = Some r /\
             iterations r = 1%nat) /\
  (forall bits op, exists r c, AtomicIntrinsics.call a bits op v = Returns r c) /\
  (forall op, operands_ok 64 op -> op <> LoadRelaxed ->
     exists r c, AtomicIntrinsicsOversized.call a fr quiet fuel op v = Returns r c).
Proof.
  intros Hfr Hv Hn Henv Hq Hfuel.
  destruct fuel as [|fuel]; [lia|].
  split; [apply swap_leaves; auto; intros; now apply Henv|].
  split; [apply fetchAndAdd_leaves; auto; intros; now apply Henv|].
  split; [rewrite swap_quiet by assumption; now eexists|].
  split; [rewrite fetchAndAdd_quiet by assumption; now eexists|].
  split.
  - intros bits op. destruct op; cbn [AtomicIntrinsics.call].
    + rewrite native_compareAndSwap_eq. now do 2 eexists.
    + destruct (AtomicIntrinsics.swap a newValue v). now do 2 eexists.
    + rewrite native_load_eq. now do 2 eexists.
    + rewrite native_loadRelaxed_eq. now do 2 eexists.
    + rewrite native_store_eq. now do 2 eexists.
    + rewrite native_fetchAndAdd_eq. now do 2 eexists.
  - intros op Hop Hrel.
    destruct op; cbn [operands_ok] in Hop; cbn [AtomicIntrinsicsOversized.call].
    + destruct Hop. rewrite compareAndSwap_eq by assumption. now do 2 eexists.
    + rewrite swap_quiet by assumption. now do 2 eexists.
    + rewrite load_eq by assumption. now do 2 eexists.
    + now destruct Hrel.
    + rewrite store_quiet by assumption. now do 2 eexists.
    + rewrite fetchAndAdd_quiet by assumption. now do 2 eexists.
Qed.

(** Other threads bump the cell during the first two runs: the loops leave
    in the third. *)
Lemma operations_total_witness :
  (frame_ok example_frame /\ is_word 64 3 /\ is_word 64 10 /\
   (forall c, before_cas busy_twice 2%nat c = c) /\ (2 < 5)%nat) /\
  exists r,
    AtomicIntrinsicsOversized.swap X86 example_frame busy_twice 5%nat 10 3 = Some r /\
    (iterations r <= 3)%nat.
Proof.
  split; [repeat split; try evaluated; lia|].
  apply (operations_total X86 example_frame busy_twice 2%nat 5%nat 3 10);
    try evaluated.
  intros i c Hc. unfold busy_twice. cbn [before_read before_cas].
  destruct (i <? 2)%nat; auto using wrap_is_word.
Defined.

(** C8, as stated, fails in the x86 branch: with [result] left without its
    initialiser and holding 0, [fetchAndAdd(cell, 1)] on a 32-bit cell
    holding 5 leaves 5, where the function as written leaves 6. *)
Lemma fetchAndAdd_initialiser_not_inert :
  AtomicIntrinsics.fetchAndAdd_uninitialised X86 32 0 1 5 = (5, 5) /\
  AtomicIntrinsics.fetchAndAdd X86 32 1 5 = (5, 6) /\
  AtomicIntrinsics.fetchAndAdd_uninitialised X86 32 0 1 5 <>
    AtomicIntrinsics.fetchAndAdd X86 32 1 5.
Proof. repeat split. discriminate. Qed.

(** C8, amended.  In the primary template's [fetchAndAdd] the initialiser
    of [result] is without effect in the ARM branch only, where the
    builtin is given [increment] and its return value overwrites [result].
    In the x86 branch [result] is the register operand of [lock xadd]:
    whatever [result] holds when the instruction runs is what is added to
    the cell, so the initialiser is what carries the increment. *)
Theorem fetchAndAdd_initialiser_role :
  (forall bits indeterminate increment v : Z,
     AtomicIntrinsics.fetchAndAdd_uninitialised ARM bits indeterminate increment v =
       AtomicIntrinsics.fetchAndAdd ARM bits increment v) /\
  (forall bits indeterminate increment v : Z,
     AtomicIntrinsics.fetchAndAdd_uninitialised X86 bits indeterminate increment v =
       (v, wrap bits (v + indeterminate)) /\
     AtomicIntrinsics.fetchAndAdd_uninitialised X86 bits indeterminate increment v =
       AtomicIntrinsics.fetchAndAdd X86 bits indeterminate v).
Proof. repeat split. Qed.

(** C10, as stated, fails: the oversized specialisation declares no
    [loadRelaxed], so a call of it does not return the cell's value. *)
Lemma oversized_has_no_loadRelaxed :
  AtomicIntrinsicsOversized.call X86 example_frame quiet 1 LoadRelaxed 5
    = NoSuchMember /\
  AtomicIntrinsicsOversized.call X86 example_frame quiet 1 LoadRelaxed 5
    <> Returns (Some 5) 5.
Proof. split; [reflexivity | discriminate]. Qed.

Lemma repeated_reads (op : Atomic Z) (v : Z) (n : nat) :
  op v = (v, v) -> repeated op n v = (repeat v n, v).
Proof.
  intros Hop. induction n as [|n IH]; cbn [repeated repeat].
  - reflexivity.
  - now rewrite Hop, IH.
Qed.

(** C10, amended.  [load] in both strategies, and [loadRelaxed] in the
    primary template (the only one that declares it), return the cell's
    value [v] and leave the cell holding [v]; the oversized [load] does so
    also when [v = 0], where its compare-and-swap writes the same zero.
    Hence any number of loads in a row, with no write in between, all
    return [v]. *)
Theorem loads_leave_cell (a : arch) :
  (forall (v : Z) (n : nat),
     AtomicIntrinsics.load a v = (v, v) /\
     AtomicIntrinsics.loadRelaxed v = (v, v) /\
     repeated (AtomicIntrinsics.load a) n v = (repeat v n, v) /\
     repeated AtomicIntrinsics.loadRelaxed n v = (repeat v n, v)) /\
  (forall (fr : frame) (v : Z) (n : nat),
     frame_ok fr -> is_word 64 v ->
     AtomicIntrinsicsOversized.load a fr v = (v, v) /\
     repeated (AtomicIntrinsicsOversized.load a fr) n v = (repeat v n, v)).
Proof.
  split.
  - intros v n.
    auto using native_load_eq, native_loadRelaxed_eq, repeated_reads.
  - intros fr v n Hfr Hv. auto using load_eq, repeated_reads.
Qed.

(** Three oversized loads of a cell holding 0 return 0, 0, 0 and leave 0. *)
Lemma loads_leave_cell_witness :
  (frame_ok example_frame /\ is_word 64 0) /\
  repeated (AtomicIntrinsicsOversized.load X86 example_frame) 3 0 = ([0; 0; 0], 0).
Proof.
  split; [split; evaluated|].
  apply (proj2 (loads_leave_cell X86) example_frame 0 3%nat); evaluated.
Defined.

(** * Further properties of the code *)

(** ** The [asm] block as a piece of machine code *)

(** The block writes nowhere but to [*dest], to [result] and to the four
    stack slots of its [push]es: a word that overlaps none of them is
    left alone. *)
Lemma cmpxchg8b_block_frame (fr : frame) (v e n p : Z) :
  frame_ok fr -> is_word 64 v -> is_word 64 e -> is_word 64 n ->
  disjoint p 4 (dest fr) 8 ->
  disjoint p 4 (addr_result fr) 8 ->
  disjoint p 4 (stack_pointer fr - 16) 16 ->
  IA32.mem (IA32.run cmpxchg8b_block (at_asm fr e n v)) p =
    IA32.mem (at_asm fr e n v) p.
Proof.
  intros Hfr Hv He Hn Hd Hr Hstack.
  unfold at_asm, cmpxchg8b_block, IA32.run, IA32.store64.
  unfold frame_ok in Hfr. unfold disjoint in Hfr, Hd, Hr, Hstack.
  rewrite modulus_32 in Hfr.
  destruct fr as [d r nv sp [a0 b0 c0 d0 s0 i0 p0] om];
    cbn [dest addr_result addr_newValue stack_pointer other_regs other_mem] in *.
  cbn [IA32.set_reg IA32.eax IA32.ebx IA32.ecx IA32.edx IA32.esi IA32.edi
       IA32.esp IA32.mem].
  do 9 step.
  rewrite (halves_eqb e v He Hv).
  destruct (e =? v); repeat step; cbn [fold_left IA32.mem]; lookup;
    reflexivity.
Qed.

(** X1. The [asm] statement of the oversized [compareAndSwap] names no
    register among its outputs and clobbers, and indeed it leaves every
    register, the stack pointer included, as it found it. *)
Theorem asm_block_preserves_registers (fr : frame) (v e n : Z) :
  frame_ok fr -> is_word 64 v -> is_word 64 e -> is_word 64 n ->
  IA32.regs (IA32.run cmpxchg8b_block (at_asm fr e n v)) =
    IA32.regs (at_asm fr e n v).
Proof. apply cmpxchg8b_block_restores. Qed.

Lemma asm_block_preserves_registers_witness :
  (frame_ok example_frame /\ is_word 64 5 /\ is_word 64 7) /\
  IA32.regs (IA32.run cmpxchg8b_block (at_asm example_frame 5 7 5)) =
    IA32.Regs 1 2 3 32776 4096 32784 32768.
Proof.
  split; [repeat split; evaluated|].
  rewrite (asm_block_preserves_registers example_frame 5 5 7) by evaluated.
  reflexivity.
Defined.

(** X2. The [asm] block writes to the eight bytes of [*dest], to the
    eight bytes of [result] and to the sixteen bytes under the stack
    pointer only: every 32-bit word of memory whose four bytes overlap
    none of these, the two halves of the parameter [newValue] among them,
    holds afterwards what it held before. *)
Theorem asm_block_writes_only_its_operands (fr : frame) (v e n p : Z) :
  frame_ok fr -> is_word 64 v -> is_word 64 e -> is_word 64 n ->
  disjoint p 4 (dest fr) 8 ->
  disjoint p 4 (addr_result fr) 8 ->
  disjoint p 4 (stack_pointer fr - 16) 16 ->
  IA32.mem (IA32.run cmpxchg8b_block (at_asm fr e n v)) p =
    IA32.mem (at_asm fr e n v) p.
Proof. apply cmpxchg8b_block_frame. Qed.

(** The low half of [newValue], at 0x8008, is still 7 after a successful
    compare-and-swap of 5 for 7. *)
Lemma asm_block_writes_only_its_operands_witness :
  (frame_ok example_frame /\ is_word 64 5 /\ is_word 64 7 /\
   disjoint 32776 4 4096 8 /\ disjoint 32776 4 32784 8 /\
   disjoint 32776 4 (32768 - 16) 16) /\
  IA32.mem (IA32.run cmpxchg8b_block (at_asm example_frame 5 7 5)) 32776 = 7.
Proof.
  split; [repeat split; evaluated|].
  rewrite (asm_block_writes_only_its_operands example_frame 5 5 7 32776);
    try evaluated.
  reflexivity.
Defined.

(** ** Words stay words *)

Lemma modulus_pos (bits : Z) : 0 <= bits -> 0 < modulus bits.
Proof. intros H. unfold modulus. apply Z.pow_pos_nonneg; lia. Qed.

Lemma wrap_word (bits v : Z) : 0 <= bits -> is_word bits (wrap bits v).
Proof.
  intros H. unfold is_word, wrap. apply Z.mod_pos_bound. now apply modulus_pos.
Qed.

Lemma zero_word (bits : Z) : 0 <= bits -> is_word bits 0.
Proof. intros H. pose proof (modulus_pos bits H). unfold is_word. lia. Qed.

Lemma native_call_word (a : arch) (bits : Z) (op : operation) (v : Z) :
  0 <= bits -> is_word bits v -> operands_ok bits op ->
  exists r c,
    AtomicIntrinsics.call a bits op v = Returns r c /\
    is_word bits c /\ (forall x, r = Some x -> x = v).
Proof.
  intros Hb Hv Hop.
  destruct op as [e n|n| | |n|i]; cbn [operands_ok] in Hop;
    cbn [AtomicIntrinsics.call].
  - destruct Hop as [He Hn]. rewrite native_compareAndSwap_eq.
    do 2 eexists. split; [reflexivity|]. split; [|congruence].
    destruct (v =? e); assumption.
  - destruct a.
    + rewrite native_swap_x86. do 2 eexists. split; [reflexivity|].
      split; [assumption | congruence].
    + rewrite native_swap_arm. do 2 eexists. split; [reflexivity|].
      split; [now apply zero_word | congruence].
  - rewrite native_load_eq. do 2 eexists. split; [reflexivity|].
    split; [assumption | congruence].
  - rewrite native_loadRelaxed_eq. do 2 eexists. split; [reflexivity|].
    split; [assumption | congruence].
  - rewrite native_store_eq. do 2 eexists. split; [reflexivity|].
    split; [assumption | discriminate].
  - rewrite native_fetchAndAdd_eq. do 2 eexists. split; [reflexivity|].
    split; [now apply wrap_word | congruence].
Qed.

Lemma oversized_call_word (a : arch) (fr : frame) (fuel : nat)
    (op : operation) (v : Z) :
  frame_ok fr -> is_word 64 v -> operands_ok 64 op -> op <> LoadRelaxed ->
  exists r c,
    AtomicIntrinsicsOversized.call a fr quiet (S fuel) op v = Returns r c /\
    is_word 64 c /\ (forall x, r = Some x -> x = v).
Proof.
  intros Hfr Hv Hop Hrel.
  destruct op as [e n|n| | |n|i]; cbn [operands_ok] in Hop;
    cbn [AtomicIntrinsicsOversized.call].
  - destruct Hop as [He Hn]. rewrite compareAndSwap_eq by assumption.
    do 2 eexists. split; [reflexivity|]. split; [|congruence].
    destruct (v =? e); assumption.
  - rewrite swap_quiet by assumption. do 2 eexists. split; [reflexivity|].
    split; [assumption | cbn; congruence].
  - rewrite load_eq by assumption. do 2 eexists. split; [reflexivity|].
    split; [assumption | congruence].
  - now destruct Hrel.
  - rewrite store_quiet by assumption. do 2 eexists. split; [reflexivity|].
    split; [assumption | discriminate].
  - rewrite fetchAndAdd_quiet by assumption. do 2 eexists.
    split; [reflexivity|]. split; [apply wrap_is_word | cbn; congruence].
Qed.

(** X3. Both strategies keep the cell a word of [T]: a call with word
    operands on a cell holding a word returns, leaves a word in the cell,
    and whatever value it returns is the word the cell held before. *)
Theorem calls_keep_the_cell_a_word (a : arch) :
  (forall (bits : Z) (op : operation) (v : Z),
     0 <= bits -> is_word bits v -> operands_ok bits op ->
     exists r c,
       AtomicIntrinsics.call a bits op v = Returns r c /\
       is_word bits c /\ (forall x, r = Some x -> x = v)) /\
  (forall (fr : frame) (fuel : nat) (op : operation) (v : Z),
     frame_ok fr -> is_word 64 v -> operands_ok 64 op -> op <> LoadRelaxed ->
     exists r c,
       AtomicIntrinsicsOversized.call a fr quiet (S fuel) op v = Returns r c /\
       is_word 64 c /\ (forall x, r = Some x -> x = v)).
Proof.
  split.
  - intros. now apply native_call_word.
  - intros. now apply oversized_call_word.
Qed.

(** An 8-bit cell holding 255: [fetchAndAdd(cell, 1)] returns 255 and
    leaves the word 0. *)
Lemma calls_keep_the_cell_a_word_witness :
  (0 <= 8 /\ is_word 8 255 /\ operands_ok 8 (FetchAndAdd 1)) /\
  exists r c,
    AtomicIntrinsics.call X86 8 (FetchAndAdd 1) 255 = Returns r c /\
    is_word 8 c /\ (forall x, r = Some x -> x = 255).
Proof.
  split; [repeat split; simpl; evaluated|].
  apply (proj1 (calls_keep_the_cell_a_word X86) 8 (FetchAndAdd 1) 255);
    simpl; evaluated.
Defined.

(** ** A counter *)

Lemma wrap_add_l (bits x y : Z) :
  0 <= bits -> wrap bits (wrap bits x + y) = wrap bits (x + y).
Proof.
  intros H. unfold wrap. apply Z.add_mod_idemp_l.
  pose proof (modulus_pos bits H). lia.
Qed.

Lemma repeated_fetchAndAdd (a : arch) (bits i : Z) (n : nat) :
  0 <= bits ->
  forall v, is_word bits v ->
  repeated (AtomicIntrinsics.fetchAndAdd a bits i) n v =
    (map (fun k => wrap bits (v + Z.of_nat k * i)) (seq 0 n),
     wrap bits (v + Z.of_nat n * i)).
Proof.
  intros Hb. induction n as [|n IH]; intros v Hv.
  - cbn [repeated seq map]. f_equal. rewrite Z.add_0_r.
    symmetry. now apply wrap_small.
  - cbn [repeated]. rewrite native_fetchAndAdd_eq.
    rewrite IH by now apply wrap_word.
    cbn [seq map]. rewrite <- seq_shift, map_map. f_equal.
    + f_equal.
      * rewrite Z.add_0_r. symmetry. now apply wrap_small.
      * apply map_ext. intros k. rewrite wrap_add_l by assumption.
        f_equal. lia.
    + rewrite wrap_add_l by assumption. f_equal. lia.
Qed.

(** X4. The primary template's [fetchAndAdd] is a counter modulo the width
    of [T]: [n] calls in a row with increment [i] on a cell holding [v]
    return [v], [v + i], ..., [v + (n-1) i] and leave [v + n i], each
    reduced modulo [2^bits]. *)
Theorem fetchAndAdd_counts (a : arch) (bits v i : Z) (n : nat) :
  0 <= bits -> is_word bits v ->
  repeated (AtomicIntrinsics.fetchAndAdd a bits i) n v =
    (map (fun k => wrap bits (v + Z.of_nat k * i)) (seq 0 n),
     wrap bits (v + Z.of_nat n * i)).
Proof. intros Hb Hv. now apply repeated_fetchAndAdd. Qed.

(** 2000 calls of [fetchAndAdd(cell, 1)] on an 8-bit cell holding 0 leave
    2000 mod 256 = 208. *)
Lemma fetchAndAdd_counts_witness :
  (0 <= 8 /\ is_word 8 0) /\
  snd (repeated (AtomicIntrinsics.fetchAndAdd X86 8 1) 2000 0) = 208.
Proof.
  split; [split; evaluated|].
  rewrite (fetchAndAdd_counts X86 8 0 1 2000) by evaluated.
  reflexivity.
Defined.

(** ** The retry loops under contention *)

(** A loop whose test holds in every run before [q] and fails in run [q]
    runs its body [q + 1] times. *)
Lemma do_while_exact {A : Type} (body : nat -> Atomic A) (again : A -> bool)
    (P : Z -> Prop) (q : nat) :
  (forall i c, P c -> P (snd (body i c))) ->
  (forall i c, (i < q)%nat -> P c -> again (fst (body i c)) = true) ->
  (forall c, P c -> again (fst (body q c)) = false) ->
  forall k i fuel c,
    (i + k = q)%nat -> (k < fuel)%nat -> P c ->
    exists r, do_while body again fuel i c = Some r /\ iterations r = S q.
Proof.
  intros Hkeep Hbusy Hquiet. induction k as [|k IH]; intros i fuel c Hq Hfuel Hc.
  - destruct fuel as [|fuel]; [lia|]. replace i with q in * by lia.
    specialize (Hquiet c Hc). cbn [do_while].
    destruct (body q c) as [x c']. cbn [fst] in Hquiet. rewrite Hquiet.
    eexists; split; reflexivity.
  - destruct fuel as [|fuel]; [lia|]. cbn [do_while].
    pose proof (Hkeep i c Hc) as Hc'.
    assert (Hi : (i < q)%nat) by lia.
    specialize (Hbusy i c Hi Hc).
    destruct (body i c) as [x c']. cbn [fst snd] in *. rewrite Hbusy.
    apply IH; [lia | lia | exact Hc'].
Qed.

Section Contention.

Variable a : arch.
Variable fr : frame.
Hypothesis fr_ok : frame_ok fr.
Variable env : interference.
Hypothesis env_words :
  forall i c, is_word 64 c ->
    is_word 64 (before_read env i c) /\ is_word 64 (before_cas env i c).

Lemma env_read_word (i : nat) (c : Z) :
  is_word 64 c -> is_word 64 (before_read env i c).
Proof. intros Hc. now apply env_words. Qed.

Lemma env_cas_word (i : nat) (c : Z) :
  is_word 64 c -> is_word 64 (before_cas env i c).
Proof. intros Hc. now apply env_words. Qed.

Lemma cell_at_word (i : nat) (v : Z) :
  is_word 64 v -> is_word 64 (cell_at env i v).
Proof.
  intros Hv. induction i as [|i IH]; cbn [cell_at];
    auto using env_read_word, env_cas_word.
Qed.

(** A loop whose body reads, lets the others in and compare-and-swaps for
    [upd] of what it read follows [cell_at] until the first run whose
    compare-and-swap finds the cell as read, and leaves there. *)
Lemma do_while_first_hit (body : nat -> Atomic (Z * Z)) (upd : Z -> Z)
    (q : nat) (v : Z) :
  (forall i c, is_word 64 c ->
     let seen := before_read env i c in
     let found := before_cas env i seen in
     body i c = ((seen, found), if found =? seen then upd seen else found)) ->
  is_word 64 v ->
  (forall i, (i < q)%nat -> found_at env i v <> read_at env i v) ->
  found_at env q v = read_at env q v ->
  forall k i fuel,
    (i + k = q)%nat -> (k < fuel)%nat ->
    do_while body again fuel i (cell_at env i v) =
      Some (Completed (read_at env q v, found_at env q v) (S q)
                      (upd (read_at env q v))).
Proof.
  intros Hbody Hv Hmiss Hhit.
  induction k as [|k IH]; intros i fuel Hq Hfuel.
  - destruct fuel as [|fuel]; [lia|]. replace i with q in * by lia.
    cbn [do_while]. rewrite Hbody by now apply cell_at_word.
    fold (read_at env q v). fold (found_at env q v).
    rewrite Hhit. cbn [again]. now rewrite Z.eqb_refl.
  - destruct fuel as [|fuel]; [lia|].
    assert (Hi : (i < q)%nat) by lia.
    cbn [do_while]. rewrite Hbody by now apply cell_at_word.
    fold (read_at env i v). fold (found_at env i v).
    specialize (Hmiss i Hi). apply Z.eqb_neq in Hmiss.
    cbn [again]. rewrite Hmiss. cbn [negb].
    change (found_at env i v) with (cell_at env (S i) v).
    apply IH; lia.
Qed.

Lemma swap_first_hit (q fuel : nat) (n v : Z) :
  is_word 64 n -> is_word 64 v ->
  (forall i, (i < q)%nat -> found_at env i v <> read_at env i v) ->
  found_at env q v = read_at env q v ->
  (q < fuel)%nat ->
  swap a fr env fuel n v = Some (Completed (found_at env q v) (S q) n).
Proof.
  intros Hn Hv Hmiss Hhit Hfuel. unfold swap.
  pose proof (do_while_first_hit (swap_body a fr env n) (fun _ => n) q v)
    as Hloop.
  cbv zeta in Hloop.
  specialize (Hloop
    (fun i c Hc => swap_body_eq a fr fr_ok env env_read_word env_cas_word
                     n i c Hn Hc)
    Hv Hmiss Hhit q 0%nat fuel eq_refl Hfuel).
  cbn [cell_at] in Hloop. now rewrite Hloop.
Qed.

Lemma fetchAndAdd_first_hit (q fuel : nat) (inc v : Z) :
  is_word 64 v ->
  (forall i, (i < q)%nat -> found_at env i v <> read_at env i v) ->
  found_at env q v = read_at env q v ->
  (q < fuel)%nat ->
  fetchAndAdd a fr env fuel inc v =
    Some (Completed (found_at env q v) (S q)
                    (wrap 64 (found_at env q v + inc))).
Proof.
  intros Hv Hmiss Hhit Hfuel. unfold fetchAndAdd.
  pose proof (do_while_first_hit (fetchAndAdd_body a fr env inc)
                (fun seen => wrap 64 (seen + inc)) q v) as Hloop.
  cbv zeta in Hloop.
  specialize (Hloop
    (fun i c Hc => fetchAndAdd_body_eq a fr fr_ok env env_read_word
                     env_cas_word inc i c Hc)
    Hv Hmiss Hhit q 0%nat fuel eq_refl Hfuel).
  cbn [cell_at] in Hloop. rewrite Hloop.
  unfold return_actual. cbn [value iterations cell_after snd option_map].
  now rewrite Hhit.
Qed.

Lemma swap_retries (q fuel : nat) (n v : Z) :
  is_word 64 n -> is_word 64 v ->
  (forall i c, (i < q)%nat -> is_word 64 c -> before_cas env i c <> c) ->
  (forall c, before_cas env q c = c) -> (q < fuel)%nat ->
  exists r, swap a fr env fuel n v = Some r /\ iterations r = S q.
Proof.
  intros Hn Hv Hbusy Hq Hfuel.
  destruct (do_while_exact (swap_body a fr env n) again (is_word 64) q)
    with (k := q) (i := 0%nat) (fuel := fuel) (c := v) as [r [Hr Hi]]; auto.
  - intros i c Hc.
    apply swap_body_keeps; auto using env_read_word, env_cas_word.
  - intros i c Hi Hc.
    rewrite swap_body_eq by auto using env_read_word, env_cas_word.
    cbn [fst again]. apply negb_true_iff, Z.eqb_neq.
    auto using env_read_word.
  - intros c Hc.
    rewrite swap_body_eq by auto using env_read_word, env_cas_word.
    cbn [fst again]. now rewrite Hq, Z.eqb_refl.
  - unfold swap. rewrite Hr. eexists; split; [reflexivity | exact Hi].
Qed.

Lemma fetchAndAdd_retries (q fuel : nat) (inc v : Z) :
  is_word 64 v ->
  (forall i c, (i < q)%nat -> is_word 64 c -> before_cas env i c <> c) ->
  (forall c, before_cas env q c = c) -> (q < fuel)%nat ->
  exists r, fetchAndAdd a fr env fuel inc v = Some r /\ iterations r = S q.
Proof.
  intros Hv Hbusy Hq Hfuel.
  destruct (do_while_exact (fetchAndAdd_body a fr env inc) again (is_word 64) q)
    with (k := q) (i := 0%nat) (fuel := fuel) (c := v) as [r [Hr Hi]]; auto.
  - intros i c Hc.
    apply fetchAndAdd_body_keeps; auto using env_read_word, env_cas_word.
  - intros i c Hi Hc.
    rewrite fetchAndAdd_body_eq by auto using env_read_word, env_cas_word.
    cbn [fst again]. apply negb_true_iff, Z.eqb_neq.
    auto using env_read_word.
  - intros c Hc.
    rewrite fetchAndAdd_body_eq by auto using env_read_word, env_cas_word.
    cbn [fst again]. now rewrite Hq, Z.eqb_refl.
  - unfold fetchAndAdd. rewrite Hr. eexists; split; [reflexivity | exact Hi].
Qed.

End Contention.

Lemma busy_twice_words (i : nat) (c : Z) :
  is_word 64 c ->
  is_word 64 (before_read busy_twice i c) /\
  is_word 64 (before_cas busy_twice i c).
Proof.
  intros Hc. unfold busy_twice. cbn [before_read before_cas].
  destruct (i <? 2)%nat; auto using wrap_is_word.
Defined.

Lemma bump_changes (c : Z) : is_word 64 c -> wrap 64 (c + 1) <> c.
Proof.
  unfold is_word, wrap. rewrite modulus_64. intros Hc.
  destruct (Z.eq_dec c 18446744073709551615) as [->|Hne].
  - discriminate.
  - rewrite Z.mod_small; lia.
Defined.

Lemma busy_twice_conflicts (i : nat) (c : Z) :
  (i < 2)%nat -> is_word 64 c -> before_cas busy_twice i c <> c.
Proof.
  intros Hi Hc. unfold busy_twice. cbn [before_cas].
  apply Nat.ltb_lt in Hi. rewrite Hi. now apply bump_changes.
Defined.

(** X5. Under any interference the oversized [swap] and [fetchAndAdd]
    retry through every run whose compare-and-swap finds the cell changed
    since it was read, and leave in the first run [q] whose
    compare-and-swap finds the cell as read.  The value returned is
    exactly the content [p] the cell had at that compare-and-swap, and
    the cell is left holding [newValue], respectively [p + increment]
    modulo [2^64].  [cell_at], [read_at] and [found_at] follow the cell
    from the call's start through the other threads' changes. *)
Theorem retry_loops_return_what_the_cas_found (a : arch) (fr : frame)
    (env : interference) (q fuel : nat) (v n : Z) :
  frame_ok fr -> is_word 64 v -> is_word 64 n ->
  (forall i c, is_word 64 c ->
     is_word 64 (before_read env i c) /\ is_word 64 (before_cas env i c)) ->
  (forall i, (i < q)%nat -> found_at env i v <> read_at env i v) ->
  found_at env q v = read_at env q v ->
  (q < fuel)%nat ->
  AtomicIntrinsicsOversized.swap a fr env fuel n v =
    Some (Completed (found_at env q v) (S q) n) /\
  AtomicIntrinsicsOversized.fetchAndAdd a fr env fuel n v =
    Some (Completed (found_at env q v) (S q)
                    (wrap 64 (found_at env q v + n))).
Proof.
  intros Hfr Hv Hn Henv Hmiss Hhit Hfuel. split.
  - now apply swap_first_hit.
  - now apply fetchAndAdd_first_hit.
Qed.

(** Against [busy_twice], on a cell holding 3: the first run reads 4 and
    finds 5, the second reads 6 and finds 7, the third reads 8 and finds
    8; [fetchAndAdd(cell, 10)] returns 8 and leaves 18. *)
Lemma retry_loops_return_what_the_cas_found_witness :
  (frame_ok example_frame /\ is_word 64 3 /\ is_word 64 10 /\
   found_at busy_twice 0 3 <> read_at busy_twice 0 3 /\
   found_at busy_twice 1 3 <> read_at busy_twice 1 3 /\
   found_at busy_twice 2 3 = read_at busy_twice 2 3 /\ (2 < 5)%nat) /\
  AtomicIntrinsicsOversized.fetchAndAdd X86 example_frame busy_twice 5 10 3
    = Some (Completed 8 3%nat 18).
Proof.
  split.
  - repeat split; try evaluated; try lia;
      vm_compute; intro H; discriminate H.
  - apply (retry_loops_return_what_the_cas_found X86 example_frame
             busy_twice 2%nat 5%nat 3 10);
      try evaluated; try exact busy_twice_words; try reflexivity.
    intros i Hi. destruct i as [|[|i]];
      [vm_compute; intro H; discriminate H
      |vm_compute; intro H; discriminate H
      |lia].
Defined.

(** X6. Each run of the body in which another thread changes the cell
    between the read and the compare-and-swap costs the oversized [swap]
    and [fetchAndAdd] exactly one retry: with such a change in each of the
    first [q] runs and none in the next, the loop runs its body [q + 1]
    times. *)
Theorem one_retry_per_conflict (a : arch) (fr : frame)
    (env : interference) (q fuel : nat) (v n : Z) :
  frame_ok fr -> is_word 64 v -> is_word 64 n ->
  (forall i c, is_word 64 c ->
     is_word 64 (before_read env i c) /\ is_word 64 (before_cas env i c)) ->
  (forall i c, (i < q)%nat -> is_word 64 c -> before_cas env i c <> c) ->
  (forall c, before_cas env q c = c) ->
  (q < fuel)%nat ->
  (exists r, AtomicIntrinsicsOversized.swap a fr env fuel n v = Some r /\
             iterations r = S q) /\
  (exists r, AtomicIntrinsicsOversized.fetchAndAdd a fr env fuel n v = Some r /\
             iterations r = S q).
Proof.
  intros Hfr Hv Hn Henv Hbusy Hq Hfuel. split.
  - now apply swap_retries.
  - now apply fetchAndAdd_retries.
Qed.

(** Against [busy_twice] the oversized [swap] runs its body three times. *)
Lemma one_retry_per_conflict_witness :
  (frame_ok example_frame /\ is_word 64 3 /\ is_word 64 10 /\
   (forall c, before_cas busy_twice 2%nat c = c) /\ (2 < 5)%nat) /\
  exists r,
    AtomicIntrinsicsOversized.swap X86 example_frame busy_twice 5%nat 10 3
      = Some r /\ iterations r = 3%nat.
Proof.
  split; [repeat split; try evaluated; lia|].
  apply (one_retry_per_conflict X86 example_frame busy_twice
           2%nat 5%nat 3 10);
    try evaluated; try exact busy_twice_words;
    try exact busy_twice_conflicts; reflexivity.
Defined.

(** ** Compare-and-swap as a read *)

(** X7. [compareAndSwap(cell, e, e)] is a read for every [e], not only for
    the 0 that the oversized [load] passes: in both strategies it returns
    the cell's value and leaves the cell as it was, whether or not the
    comparison hits. *)
Theorem compareAndSwap_same_is_a_read (a : arch) :
  (forall v e : Z, AtomicIntrinsics.compareAndSwap a e e v = (v, v)) /\
  (forall (fr : frame) (v e : Z),
     frame_ok fr -> is_word 64 v -> is_word 64 e ->
     AtomicIntrinsicsOversized.compareAndSwap a fr e e v = (v, v) /\
     AtomicIntrinsicsOversized.compareAndSwap a fr e e v =
       AtomicIntrinsicsOversized.load a fr v).
Proof.
  split.
  - intros v e. rewrite native_compareAndSwap_eq.
    destruct (Z.eqb_spec v e); congruence.
  - intros fr v e Hfr Hv He.
    rewrite load_eq, compareAndSwap_eq by assumption.
    destruct (Z.eqb_spec v e); split; congruence.
Qed.

Lemma compareAndSwap_same_is_a_read_witness :
  (frame_ok example_frame /\ is_word 64 7 /\ is_word 64 7) /\
  AtomicIntrinsicsOversized.compareAndSwap X86 example_frame 7 7 7 = (7, 7).
Proof.
  split; [repeat split; evaluated|].
  apply (proj2 (compareAndSwap_same_is_a_read X86) example_frame 7 7);
    evaluated.
Defined.

(** ** Sequences of calls *)

Lemma oversized_call_as_native_x86 (a : arch) (fr : frame) (fuel : nat)
    (op : operation) (v : Z) :
  frame_ok fr -> is_word 64 v -> operands_ok 64 op -> op <> LoadRelaxed ->
  AtomicIntrinsicsOversized.call a fr quiet (S fuel) op v =
    AtomicIntrinsics.call X86 64 op v.
Proof.
  intros Hfr Hv Hop Hrel.
  destruct op as [e n|n| | |n|i]; cbn [operands_ok] in Hop;
    cbn [AtomicIntrinsicsOversized.call AtomicIntrinsics.call].
  - destruct Hop as [He Hn].
    now rewrite compareAndSwap_eq, native_compareAndSwap_eq.
  - now rewrite swap_quiet, native_swap_x86.
  - now rewrite load_eq, native_load_eq.
  - now destruct Hrel.
  - now rewrite store_quiet, native_store_eq.
  - now rewrite fetchAndAdd_quiet, native_fetchAndAdd_eq.
Qed.

Lemma calls_as_native_x86 (a : arch) (fr : frame) (fuel : nat)
    (ops : list operation) :
  frame_ok fr ->
  Forall (fun op => operands_ok 64 op /\ op <> LoadRelaxed) ops ->
  forall v, is_word 64 v ->
  calls (AtomicIntrinsicsOversized.call a fr quiet (S fuel)) ops v =
    calls (AtomicIntrinsics.call X86 64) ops v.
Proof.
  intros Hfr Hops. induction Hops as [|op ops [Hop Hrel] _ IH]; intros v Hv.
  - reflexivity.
  - cbn [calls].
    rewrite oversized_call_as_native_x86 by assumption.
    destruct (native_call_word X86 64 op v) as [r [c [Hcall [Hc _]]]];
      [lia | assumption | assumption |].
    rewrite Hcall. now rewrite IH.
Qed.

(** X8. A caller alone on the cell cannot tell the oversized
    specialisation from the x86 primary template at the same 64-bit word:
    any sequence of [compareAndSwap], [swap], [load], [store] and
    [fetchAndAdd] calls returns the same values, call by call, and leaves
    the same cell, in either branch of the specialisation. *)
Theorem oversized_sequences_match_native (a : arch) (fr : frame)
    (fuel : nat) (ops : list operation) (v : Z) :
  frame_ok fr -> is_word 64 v ->
  Forall (fun op => operands_ok 64 op /\ op <> LoadRelaxed) ops ->
  calls (AtomicIntrinsicsOversized.call a fr quiet (S fuel)) ops v =
    calls (AtomicIntrinsics.call X86 64) ops v.
Proof. intros Hfr Hv Hops. now apply calls_as_native_x86. Qed.

(** Store, add, swap, compare-and-swap and load, one after the other. *)
Lemma oversized_sequences_match_native_witness :
  (frame_ok example_frame /\ is_word 64 1) /\
  calls (AtomicIntrinsicsOversized.call ARM example_frame quiet 1)
    [Store 18446744073709551615; FetchAndAdd 2; Swap 9;
     CompareAndSwap 9 4; Load] 1 =
  ([Returns None 18446744073709551615;
    Returns (Some 18446744073709551615) 1;
    Returns (Some 1) 9; Returns (Some 9) 4; Returns (Some 4) 4], 4).
Proof.
  split; [split; evaluated|].
  rewrite (oversized_sequences_match_native ARM example_frame 0%nat
             [Store 18446744073709551615; FetchAndAdd 2; Swap 9;
              CompareAndSwap 9 4; Load] 1).
  - reflexivity.
  - evaluated.
  - evaluated.
  - repeat constructor; simpl; try discriminate; evaluated.
Defined.

(** ** The two branches of [#if defined(__arm__)] *)

(** Loops whose bodies agree wherever [P] holds, and keep [P], agree. *)
Lemma do_while_ext {A : Type} (body1 body2 : nat -> Atomic A)
    (again : A -> bool) (P : Z -> Prop) :
  (forall i c, P c -> body1 i c = body2 i c) ->
  (forall i c, P c -> P (snd (body1 i c))) ->
  forall fuel i c, P c ->
    do_while body1 again fuel i c = do_while body2 again fuel i c.
Proof.
  intros Hsame Hkeep. induction fuel as [|fuel IH]; intros i c Hc.
  - reflexivity.
  - cbn [do_while]. rewrite <- (Hsame i c Hc).
    pose proof (Hkeep i c Hc) as Hc'.
    destruct (body1 i c) as [x c']. cbn [snd] in Hc'.
    destruct (again x); [now apply IH | reflexivity].
Qed.

Section Branches.

Variable fr : frame.
Hypothesis fr_ok : frame_ok fr.
Variable env : interference.
Hypothesis before_read_words :
  forall i c, is_word 64 c -> is_word 64 (before_read env i c).
Hypothesis before_cas_words :
  forall i c, is_word 64 c -> is_word 64 (before_cas env i c).

Lemma swap_branches (fuel : nat) (n v : Z) :
  is_word 64 n -> is_word 64 v ->
  swap ARM fr env fuel n v = swap X86 fr env fuel n v.
Proof.
  intros Hn Hv. unfold swap. f_equal.
  apply (do_while_ext _ _ _ (is_word 64)); [| |exact Hv].
  - intros i c Hc. now rewrite !swap_body_eq.
  - intros i c Hc. now apply swap_body_keeps.
Qed.

Lemma fetchAndAdd_branches (fuel : nat) (inc v : Z) :
  is_word 64 v ->
  fetchAndAdd ARM fr env fuel inc v = fetchAndAdd X86 fr env fuel inc v.
Proof.
  intros Hv. unfold fetchAndAdd. f_equal.
  apply (do_while_ext _ _ _ (is_word 64)); [| |exact Hv].
  - intros i c Hc. now rewrite !fetchAndAdd_body_eq.
  - intros i c Hc. now apply fetchAndAdd_body_keeps.
Qed.

Lemma oversized_call_branches (fuel : nat) (op : operation) (v : Z) :
  is_word 64 v -> operands_ok 64 op ->
  AtomicIntrinsicsOversized.call ARM fr env fuel op v =
    AtomicIntrinsicsOversized.call X86 fr env fuel op v.
Proof.
  intros Hv Hop.
  destruct op as [e n|n| | |n|i]; cbn [operands_ok] in Hop;
    cbn [AtomicIntrinsicsOversized.call].
  - destruct Hop as [He Hn].
    now rewrite (compareAndSwap_eq ARM), (compareAndSwap_eq X86).
  - now rewrite swap_branches.
  - now rewrite (load_eq ARM), (load_eq X86).
  - reflexivity.
  - unfold store. now rewrite swap_branches.
  - now rewrite fetchAndAdd_branches.
Qed.

End Branches.

(** X9. The ARM branches are interchangeable with the x86 ones everywhere
    but in the primary template's [swap]: [compareAndSwap], [load],
    [loadRelaxed], [store] and [fetchAndAdd] of the primary template, and
    every operation of the oversized specialisation (whose [asm] block
    thus does what [__sync_val_compare_and_swap] does), return the same
    value and leave the same cell in both branches, under any
    interference. *)
Theorem arm_and_x86_branches_agree :
  (forall (bits : Z) (op : operation) (v : Z),
     (forall n, op <> Swap n) ->
     AtomicIntrinsics.call ARM bits op v = AtomicIntrinsics.call X86 bits op v) /\
  (forall (fr : frame) (env : interference) (fuel : nat) (op : operation) (v : Z),
     frame_ok fr -> is_word 64 v -> operands_ok 64 op ->
     (forall i c, is_word 64 c ->
        is_word 64 (before_read env i c) /\ is_word 64 (before_cas env i c)) ->
     AtomicIntrinsicsOversized.call ARM fr env fuel op v =
       AtomicIntrinsicsOversized.call X86 fr env fuel op v).
Proof.
  split.
  - intros bits op v Hswap. destruct op; try reflexivity.
    + cbn [AtomicIntrinsics.call]. now rewrite !native_compareAndSwap_eq.
    + now destruct (Hswap newValue).
  - intros fr env fuel op v Hfr Hv Hop Henv.
    apply oversized_call_branches; auto; intros; now apply Henv.
Qed.

(** Against [busy_twice], [fetchAndAdd(cell, 10)] on a cell holding 3 comes
    to the same in both branches of the oversized specialisation. *)
Lemma arm_and_x86_branches_agree_witness :
  (frame_ok example_frame /\ is_word 64 3 /\ operands_ok 64 (FetchAndAdd 10)) /\
  AtomicIntrinsicsOversized.call ARM example_frame busy_twice 5 (FetchAndAdd 10) 3 =
    AtomicIntrinsicsOversized.call X86 example_frame busy_twice 5 (FetchAndAdd 10) 3.
Proof.
  split; [repeat split; simpl; evaluated|].
  apply (proj2 arm_and_x86_branches_agree example_frame busy_twice 5%nat
           (FetchAndAdd 10) 3);
    try (simpl; evaluated); exact busy_twice_words.
Defined.
